(** * TypeScript code snippets: run-time behaviour of the union-type examples

    Embedding of the functions of
    [05_unions_and_intersection_types/unions_and_intersection_types.ts]
    ([padLeft1], [logger], [logger2], [logger3], [assertNever], [logger4],
    [handleArtistsResponse]) and of [reverse] from the basic-types snippets,
    as the emitted JavaScript runs them (type annotations are erased). *)

From Stdlib Require Import ZArith String Ascii List Lia Bool.
From Stdlib Require Import DecimalString DecimalZ Permutation.
Import ListNotations.

Local Open Scope Z_scope.
Local Open Scope string_scope.
Local Open Scope list_scope.

(** ** Values *)

(** The values the snippets handle: primitives and plain objects whose
    properties hold data.  [VNum n] is the number whose value is the integer
    [n], for the integers a double holds exactly and prints in decimal
    (the safe integers); a character of a [string] stands for one code unit.
    An object is its list of own properties, in creation order. *)
#[local] Set Warnings "-register-all".
Inductive JsVal : Type :=
| VUndefined
| VNull
| VBool (b : bool)
| VNum (n : Z)
| VStr (s : string)
| VObj (props : list (string * JsVal)).

(** What a [throw] carries.  [Error message] is [new Error(message)];
    [TypeError] and [RangeError] are the errors raised by the language's own
    operations, whose messages depend on the engine. *)
Inductive JsError : Type :=
| Error (message : string)
| TypeError
| RangeError.

Inductive Completion (A : Type) : Type :=
| Normal (a : A)
| Throw (e : JsError).

Arguments Normal {A} a.
Arguments Throw {A} e.

Definition cbind {A B : Type} (c : Completion A) (k : A -> Completion B)
  : Completion B :=
  match c with
  | Normal a => k a
  | Throw e => Throw e
  end.

(** ** Effects *)

(** The only effect the snippets of this file have on their environment is
    writing to the console ([handleArtistsResponse] does); the world is what
    has been written so far, oldest first. *)
Inductive ConsoleEntry : Type :=
| ConsoleLog (v : JsVal)
| ConsoleError (v : JsVal).

Definition World : Type := list ConsoleEntry.

(** A computation runs in a world and leaves a completion and a world. *)
Definition Exec (A : Type) : Type := World -> Completion A * World.

Definition ret {A : Type} (a : A) : Exec A := fun w => (Normal a, w).

Definition throw {A : Type} (e : JsError) : Exec A := fun w => (Throw e, w).

Definition bind {A B : Type} (m : Exec A) (k : A -> Exec B) : Exec B :=
  fun w =>
    match m w with
    | (Normal a, w') => k a w'
    | (Throw e, w') => (Throw e, w')
    end.

(** An operation of the language that touches no world. *)
Definition lift {A : Type} (c : Completion A) : Exec A := fun w => (c, w).

Definition console_log (v : JsVal) : Exec JsVal :=
  fun w => (Normal VUndefined, w ++ [ConsoleLog v]).

Definition console_error (v : JsVal) : Exec JsVal :=
  fun w => (Normal VUndefined, w ++ [ConsoleError v]).

Declare Scope exec_scope.
Delimit Scope exec_scope with exec.
Notation "x <- m ;; k" := (bind m (fun x => k))
  (at level 61, m at next level, right associativity) : exec_scope.
Local Open Scope exec_scope.

(** ** Operations of the language *)

Fixpoint assoc (k : string) (ps : list (string * JsVal)) : option JsVal :=
  match ps with
  | [] => None
  | (k', v) :: ps' => if String.eqb k k' then Some v else assoc k ps'
  end.

(** Own property [k] of [v], if [v] is an object that has one. *)
Definition own (v : JsVal) (k : string) : option JsVal :=
  match v with
  | VObj ps => assoc k ps
  | _ => None
  end.

Definition typeof (v : JsVal) : string :=
  match v with
  | VUndefined => "undefined"
  | VNull => "object"
  | VBool _ => "boolean"
  | VNum _ => "number"
  | VStr _ => "string"
  | VObj _ => "object"
  end.

(** [v.k], for the property names the snippets read ([state], [code],
    [response], [title], [summary], [error], [message], [artists]), none of
    which a built-in prototype defines: reading from [undefined] or [null]
    throws, a missing property reads as [undefined]. *)
Definition GetV (v : JsVal) (k : string) : Completion JsVal :=
  match v with
  | VUndefined | VNull => Throw TypeError
  | VObj ps =>
      match assoc k ps with
      | Some x => Normal x
      | None => Normal VUndefined
      end
  | _ => Normal VUndefined
  end.

(** The integers a number holds exactly and prints digit by digit: those
    strictly between [-2^53] and [2^53]. *)
Definition safe_integer (n : Z) : Prop :=
  (-9007199254740992 < n < 9007199254740992)%Z.


(** The decimal text of a safe integer [n]; statements that print a number
    assume it is one. *)
Definition Number_toString (n : Z) : string :=
  NilZero.string_of_int (Z.to_int n).

(** String conversion, as a template literal and [+] with a string apply it.
    A plain object converts through the [toString] it inherits; an own
    property of that name, which holds data here and so cannot be called,
    leaves the object without a conversion. *)
Definition ToString (v : JsVal) : Completion string :=
  match v with
  | VUndefined => Normal "undefined"
  | VNull => Normal "null"
  | VBool true => Normal "true"
  | VBool false => Normal "false"
  | VNum n => Normal (Number_toString n)
  | VStr s => Normal s
  | VObj ps =>
      match assoc "toString" ps with
      | Some _ => Throw TypeError
      | None => Normal "[object Object]"
      end
  end.

(** Truthiness, as an [if] tests it. *)
Definition ToBoolean (v : JsVal) : bool :=
  match v with
  | VUndefined | VNull => false
  | VBool b => b
  | VNum n => negb (n =? 0)%Z
  | VStr s => negb (String.eqb s "")
  | VObj _ => true
  end.

(** [d === label] for a string literal [label]. *)
Definition strict_equals_string (d : JsVal) (label : string) : bool :=
  match d with
  | VStr s => String.eqb s label
  | _ => false
  end.

(** *** Arrays *)

(** An array is the list of its elements; [None] is a hole. *)
Definition JsArray : Type := list (option JsVal).

(** [Array(len)] for a number [len]. *)
Definition Array_ (len : Z) : Completion JsArray :=
  if ((0 <=? len) && (len <=? 4294967295))%Z
  then Normal (repeat None (Z.to_nat len))
  else Throw RangeError.

Definition join_element (e : option JsVal) : Completion string :=
  match e with
  | None | Some VUndefined | Some VNull => Normal ""
  | Some v => ToString v
  end.

(** The loop of [Array.prototype.join] over the elements after the first;
    [R] is the string built so far. *)
Fixpoint join_loop (sep : string) (R : string) (a : JsArray)
  : Completion string :=
  match a with
  | [] => Normal R
  | e :: a' =>
      cbind (join_element e) (fun next => join_loop sep (R ++ sep ++ next) a')
  end.

Definition Array_join (a : JsArray) (sep : string) : Completion string :=
  match a with
  | [] => Normal ""
  | e :: a' => cbind (join_element e) (fun first => join_loop sep first a')
  end.

(** [Array.prototype.reverse] (the array it returns). *)
Definition Array_reverse (a : JsArray) : JsArray := rev a.

(** [s.split("")]: one string per code unit. *)
Fixpoint String_split_empty (s : string) : JsArray :=
  match s with
  | EmptyString => []
  | String c s' => Some (VStr (String c EmptyString)) :: String_split_empty s'
  end.

(** ** The functions of the snippets *)

(** The longest string the engine makes ([2^29 - 24] code units). *)
Definition max_string_length : Z := 536870888.

(** A string an operation has just built: one longer than the engine's
    limit is not made, the operation throws a [RangeError] instead.  The
    limit is modelled where a small argument makes a long string, in
    [padLeft1]. *)
Definition new_string (s : string) : Completion string :=
  if (Z.of_nat (String.length s) <=? max_string_length)%Z
  then Normal s
  else Throw RangeError.

(** [padLeft1(value, padding)].  The first two branches are the tests
    [typeof padding === "number"] and [typeof padding === "string"]: a value
    has one of these types exactly when it is a [VNum] or a [VStr].  In
    them [join] and [+] each build a string. *)
Definition padLeft1 (value : string) (padding : JsVal) : Exec JsVal :=
  match padding with
  | VNum n =>
      a <- lift (Array_ (n + 1)) ;;
      blanks <- lift (cbind (Array_join a " ") new_string) ;;
      padded <- lift (new_string (blanks ++ value)) ;;
      ret (VStr padded)
  | VStr p =>
      padded <- lift (new_string (p ++ value)) ;;
      ret (VStr padded)
  | _ =>
      got <- lift (ToString padding) ;;
      throw (Error ("Expected string or number, got '" ++ got ++ "'."))
  end.

(** A [case label: ... return ...] clause: the label and the body, which
    reads the function's argument. *)
Definition CaseClause : Type := string * (JsVal -> Exec JsVal).

(** A [switch] on [d] inside a function of argument [s], every clause of
    which returns: the clauses are tried in order with [===]; when none
    matches, the [default] clause runs if there is one, and otherwise
    control leaves the [switch] and the function returns [undefined]. *)
Fixpoint switch_return (d : JsVal) (cases : list CaseClause)
    (default : option (JsVal -> Exec JsVal)) (s : JsVal) : Exec JsVal :=
  match cases with
  | [] =>
      match default with
      | Some body => body s
      | None => ret VUndefined
      end
  | (label, body) :: rest =>
      if strict_equals_string d label then body s
      else switch_return d rest default s
  end.

Definition logger_cases : list CaseClause :=
  [ ("loading", fun _ => ret (VStr "Downloading..."));
    ("failed", fun state =>
       code <- lift (GetV state "code") ;;
       c <- lift (ToString code) ;;
       ret (VStr ("Error " ++ c ++ " downloading")));
    ("success", fun state =>
       r1 <- lift (GetV state "response") ;;
       title <- lift (GetV r1 "title") ;;
       t <- lift (ToString title) ;;
       r2 <- lift (GetV state "response") ;;
       summary <- lift (GetV r2 "summary") ;;
       m <- lift (ToString summary) ;;
       ret (VStr ("Downloaded " ++ t ++ " - " ++ m))) ].

Definition logger (state : JsVal) : Exec JsVal :=
  d <- lift (GetV state "state") ;;
  switch_return d logger_cases None state.

Definition logger2_cases : list CaseClause :=
  [ ("loading", fun _ => ret (VStr "loading request"));
    ("failed", fun s =>
       code <- lift (GetV s "code") ;;
       c <- lift (ToString code) ;;
       ret (VStr ("failed with code " ++ c)));
    ("success", fun _ => ret (VStr "got response")) ].

Definition logger2 (s : JsVal) : Exec JsVal :=
  d <- lift (GetV s "state") ;;
  switch_return d logger2_cases None s.

Definition logger3_cases : list CaseClause :=
  [ ("loading", fun _ => ret (VStr "loading request"));
    ("failed", fun s =>
       code <- lift (GetV s "code") ;;
       c <- lift (ToString code) ;;
       ret (VStr ("failed with code " ++ c)));
    ("success", fun _ => ret (VStr "got response")) ].

Definition logger3 (s : JsVal) : Exec JsVal :=
  d <- lift (GetV s "state") ;;
  switch_return d logger3_cases None s.

(** [assertNever(x)]: [throw new Error("Unexpected object: " + x)]. *)
Definition assertNever (x : JsVal) : Exec JsVal :=
  str <- lift (ToString x) ;;
  throw (Error ("Unexpected object: " ++ str)).

Definition logger4_cases : list CaseClause :=
  [ ("loading", fun _ => ret (VStr "loading request"));
    ("failed", fun s =>
       code <- lift (GetV s "code") ;;
       c <- lift (ToString code) ;;
       ret (VStr ("failed with code " ++ c)));
    ("success", fun _ => ret (VStr "got response"));
    ("from_cache", fun _ => ret (VStr "cashed")) ].

Definition logger4 (s : JsVal) : Exec JsVal :=
  d <- lift (GetV s "state") ;;
  switch_return d logger4_cases (Some assertNever) s.

(** The shape [logger], [logger2], [logger3] and [logger4] share: read the
    discriminant [field] of the argument and [switch] on it. *)
Definition dispatch_on (field : string) (cases : list CaseClause)
    (default : option (JsVal -> Exec JsVal)) (value : JsVal) : Exec JsVal :=
  d <- lift (GetV value field) ;;
  switch_return d cases default value.

(** [handleArtistsResponse(response)]. *)
Definition handleArtistsResponse (response : JsVal) : Exec JsVal :=
  error <- lift (GetV response "error") ;;
  if ToBoolean error then
    error' <- lift (GetV response "error") ;;
    message <- lift (GetV error' "message") ;;
    _ <- console_error message ;;
    ret VUndefined
  else
    artists <- lift (GetV response "artists") ;;
    _ <- console_log artists ;;
    ret VUndefined.

(** [reverse(s)]: [s.split("").reverse().join("")]. *)
Definition reverse (s : string) : Exec JsVal :=
  joined <- lift (Array_join (Array_reverse (String_split_empty s)) "") ;;
  ret (VStr joined).

(** ** The declared types

    The type declarations leave no trace at run time; they are kept as
    predicates on values and as the lists of their [state] literals, in the
    order of the union. *)

Definition NetworkLoadingState (v : JsVal) : Prop :=
  own v "state" = Some (VStr "loading").

Definition Response (r : JsVal) : Prop :=
  exists title duration summary,
    own r "title" = Some (VStr title) /\
    own r "duration" = Some (VNum duration) /\
    own r "summary" = Some (VStr summary).

Definition NetworkSuccessState (v : JsVal) : Prop :=
  own v "state" = Some (VStr "success") /\
  exists r, own v "response" = Some r /\ Response r.

Definition NetworkFailedState (v : JsVal) : Prop :=
  own v "state" = Some (VStr "failed") /\
  exists code, own v "code" = Some (VNum code).

Definition NetworkState (v : JsVal) : Prop :=
  NetworkSuccessState v \/ NetworkFailedState v \/ NetworkLoadingState v.

Definition NetworkState_tags : list string :=
  ["success"; "failed"; "loading"].

Definition NetworkFromCachedState (v : JsVal) : Prop :=
  own v "state" = Some (VStr "from_cache") /\
  (exists id, own v "id" = Some (VStr id)) /\
  exists r, own v "response" = Some r /\ Response r.

Definition NetworkState2 (v : JsVal) : Prop :=
  NetworkLoadingState v \/ NetworkFailedState v \/
  NetworkSuccessState v \/ NetworkFromCachedState v.

Definition NetworkState2_tags : list string :=
  ["loading"; "failed"; "success"; "from_cache"].

(** ** Vocabulary of the statements *)

Definition labels (cases : list CaseClause) : list string := map fst cases.

(** The clauses whose label equals [d]. *)
Definition matching (d : JsVal) (cases : list CaseClause) : list CaseClause :=
  filter (fun c => strict_equals_string d (fst c)) cases.

(** The body a [switch] on [d] runs. *)
Definition selected (d : JsVal) (cases : list CaseClause)
    (default : option (JsVal -> Exec JsVal)) : JsVal -> Exec JsVal :=
  match find (fun c => strict_equals_string d (fst c)) cases with
  | Some (_, body) => body
  | None =>
      match default with
      | Some body => body
      | None => fun _ => ret VUndefined
      end
  end.

(** The declared tags no clause of [cases] is labelled with. *)
Definition missing_tags (tags : list string) (cases : list CaseClause)
  : list string :=
  filter (fun t => negb (existsb (String.eqb t) (labels cases))) tags.

(** A computation that leaves the world as it found it and whose completion
    does not depend on the world. *)
Definition pure {A : Type} (m : Exec A) : Prop :=
  exists c, forall w, m w = (c, w).

(** [n] spaces. *)
Definition spaces (n : nat) : string :=
  string_of_list_ascii (repeat " "%char n).



(** The array element [s.split("")] makes of one code unit. *)
Definition unit_string (c : ascii) : option JsVal :=
  Some (VStr (String c EmptyString)).

(** ** Sample values *)

Definition response_sample : JsVal :=
  VObj [("title", VStr "Intro"); ("duration", VNum 12);
        ("summary", VStr "first steps")].

Definition loading_state : JsVal := VObj [("state", VStr "loading")].

Definition failed_404 : JsVal :=
  VObj [("state", VStr "failed"); ("code", VNum 404)].

Definition success_state : JsVal :=
  VObj [("state", VStr "success"); ("response", response_sample)].

Definition from_cache_state : JsVal :=
  VObj [("state", VStr "from_cache"); ("id", VStr "a1");
        ("response", response_sample)].






(** Closes [forall tag, In tag [t1; ...; tn] -> d <> VStr tag] for a
    string [d] outside the list. *)
Ltac no_such_tag :=
  let t := fresh "t" in
  let H := fresh "H" in
  let E := fresh "E" in
  simpl; intros t H E;
  repeat (destruct H as [H | H]; [subst t; discriminate E | ]);
  exact H.

(** ** Further functions of the snippets *)

(** Storing [v] as own property [k] of a property list: an existing
    property keeps its place and takes the new value, a new one is added
    last. *)
Fixpoint put_own (ps : list (string * JsVal)) (k : string) (v : JsVal)
  : list (string * JsVal) :=
  match ps with
  | [] => [(k, v)]
  | (k', v') :: ps' =>
      if String.eqb k k' then (k', v) :: ps' else (k', v') :: put_own ps' k v
  end.

(** [obj[k] = v] on the property list of a plain object [obj], for a
    number or a string [v], which is what a compiled enum stores.  Every
    name is stored as an own property but [__proto__], which the object
    inherits as an accessor: assigning a primitive to it stores nothing. *)
Definition put (ps : list (string * JsVal)) (k : string) (v : JsVal)
  : list (string * JsVal) :=
  if String.eqb k "__proto__" then ps else put_own ps k v.

(** One statement [E[E["name"] = value] = "name"] of a compiled enum: the
    inner assignment stores [value] under [name] and yields [value], whose
    string is the key the outer assignment stores [name] under. *)
Definition enum_member (E : list (string * JsVal)) (name : string)
    (value : Z) : list (string * JsVal) :=
  put (put E name (VNum value)) (Number_toString value) (VStr name).

(** The properties a compiled enum leaves on its object: the statements of
    its body, one per member and in order, run on an empty object. *)
Definition enum_props (members : list (string * Z))
  : list (string * JsVal) :=
  fold_left (fun E m => enum_member E (fst m) (snd m)) members [].

Definition build_enum (members : list (string * Z)) : JsVal :=
  VObj (enum_props members).

Definition Color1 : JsVal := build_enum [("Red", 0); ("Green", 1); ("Blue", 2)].

Definition Color2 : JsVal := build_enum [("Red", 1); ("Green", 2); ("Blue", 3)].

Definition Color3 : JsVal := build_enum [("Red", 1); ("Green", 2); ("Blue", 4)].

Definition Color4 : JsVal := build_enum [("Red", 1); ("Green", 2); ("Blue", 3)].

(** [obj[k]] for a computed key [k] that is not a symbol. *)
Definition GetV_computed (obj k : JsVal) : Completion JsVal :=
  cbind (ToString k) (GetV obj).

(** [let colorName = Color4[2]]. *)
Definition colorName : Completion JsVal := GetV_computed Color4 (VNum 2).

(** [greeting()]. *)
Definition greeting : Exec JsVal :=
  _ <- console_log (VStr "Hello") ;;
  ret VUndefined.

(** [error(message)]: [throw new Error(message)]. *)
Definition error (message : string) : Exec JsVal := throw (Error message).

(** [fail()]. *)
Definition fail : Exec JsVal := error "Something failed".

(** [padLeft2(value, padding)], whose body is empty. *)
Definition padLeft2 (value : string) (padding : JsVal) : Exec JsVal :=
  ret VUndefined.

(** [buildName1(firstName, lastName)]; an argument left off is
    [undefined]. *)
Definition buildName1 (firstName lastName : JsVal) : Exec JsVal :=
  if ToBoolean lastName then
    f <- lift (ToString firstName) ;;
    l <- lift (ToString lastName) ;;
    ret (VStr (f ++ " " ++ l))
  else
    f <- lift (ToString firstName) ;;
    ret (VStr f).

(** [buildName2(firstName, lastName = "Bond")]: the default replaces an
    argument that is [undefined]. *)
Definition buildName2 (firstName lastName : JsVal) : Exec JsVal :=
  let lastName :=
    match lastName with
    | VUndefined => VStr "Bond"
    | _ => lastName
    end in
  f <- lift (ToString firstName) ;;
  l <- lift (ToString lastName) ;;
  ret (VStr (f ++ " " ++ l)).

(** [buildName3(firstName, ...restOfName)]:
    [firstName + " " + restOfName.join(" ")]; the rest parameter is the
    array of the remaining arguments. *)
Definition buildName3 (firstName : JsVal) (restOfName : list JsVal)
  : Exec JsVal :=
  f <- lift (ToString firstName) ;;
  joined <- lift (Array_join (map Some restOfName) " ") ;;
  ret (VStr ((f ++ " ") ++ joined)).

(** The type [ArtistsResponse = ArtistsData & ErrorHandling], as far as
    [handleArtistsResponse] reads it: [artists] present, [error] absent or an
    object with a string [message]. *)
Definition ArtistsResponse (v : JsVal) : Prop :=
  (exists artists, own v "artists" = Some artists) /\
  (own v "error" = None \/
   exists e message,
     own v "error" = Some (VObj e) /\ assoc "message" e = Some (VStr message)).

(** [sep]-separated concatenation of strings. *)
Fixpoint intercalate (sep : string) (l : list string) : string :=
  match l with
  | [] => ""
  | [x] => x
  | x :: l' => x ++ sep ++ intercalate sep l'
  end.

(** What [join] appends after the first element of an array of strings. *)
Fixpoint join_tail (sep : string) (l : list string) : string :=
  match l with
  | [] => ""
  | y :: l' => sep ++ y ++ join_tail sep l'
  end.

(** A response that carries an error. *)
Definition failed_response : JsVal :=
  VObj [("artists", VStr "none"); ("success", VBool false);
        ("error", VObj [("message", VStr "not found")])].

(** ** Facts about the monad *)

Lemma GetV_own (v : JsVal) (k : string) (x : JsVal) :
  own v k = Some x -> GetV v k = Normal x.
Proof.
  destruct v; simpl; try discriminate.
  intros ->. reflexivity.
Qed.

Lemma own_GetV (v : JsVal) (k : string) (x : JsVal) :
  own v k = Some x -> forall w, lift (GetV v k) w = (Normal x, w).
Proof.
  intros H w. unfold lift. now rewrite (GetV_own _ _ _ H).
Qed.

Lemma pure_ret {A : Type} (a : A) : pure (ret a).
Proof. exists (Normal a). reflexivity. Qed.

Lemma pure_throw {A : Type} (e : JsError) : pure (@throw A e).
Proof. exists (Throw e). reflexivity. Qed.

Lemma pure_lift {A : Type} (c : Completion A) : pure (lift c).
Proof. exists c. reflexivity. Qed.

Lemma pure_bind {A B : Type} (m : Exec A) (k : A -> Exec B) :
  pure m -> (forall a, pure (k a)) -> pure (bind m k).
Proof.
  intros [c Hm] Hk. destruct c as [a | e].
  - destruct (Hk a) as [c' Hc']. exists c'. intros w.
    unfold bind. rewrite Hm. apply Hc'.
  - exists (Throw e). intros w. unfold bind. now rewrite Hm.
Qed.

Create HintDb purity.
#[local] Hint Resolve pure_ret pure_throw pure_lift : purity.
#[local] Hint Extern 2 (pure (bind _ _)) =>
  apply pure_bind; [ | intro ] : purity.

(** ** Facts about [switch] *)

Lemma strict_equals_string_true (d : JsVal) (label : string) :
  strict_equals_string d label = true <-> d = VStr label.
Proof.
  destruct d; simpl; try (split; [discriminate | intros [=]]).
  rewrite String.eqb_eq. split; [now intros -> | now intros [= ->]].
Qed.

Lemma strict_equals_string_false (d : JsVal) (label : string) :
  strict_equals_string d label = false <-> d <> VStr label.
Proof.
  rewrite <- strict_equals_string_true.
  destruct (strict_equals_string d label); split; congruence.
Qed.

Section Switch.

Variable d : JsVal.
Variable default : option (JsVal -> Exec JsVal).
Variable s : JsVal.

(** The [switch] runs the selected body, once, and nothing else. *)
Lemma switch_return_selected (cases : list CaseClause) :
  switch_return d cases default s = selected d cases default s.
Proof.
  unfold selected.
  induction cases as [ | [label body] rest IH]; simpl.
  - now destruct default.
  - now destruct (strict_equals_string d label).
Qed.

Lemma matching_nil (cases : list CaseClause) :
  (forall tag, In tag (labels cases) -> d <> VStr tag) ->
  matching d cases = [].
Proof.
  unfold matching, labels.
  induction cases as [ | [label body] rest IH]; simpl; intros H; trivial.
  assert (Hl : strict_equals_string d label = false)
    by (apply strict_equals_string_false, H; now left).
  rewrite Hl. apply IH. intros tag Hin. apply H. now right.
Qed.

Lemma switch_return_unmatched (cases : list CaseClause) :
  (forall tag, In tag (labels cases) -> d <> VStr tag) ->
  switch_return d cases default s =
  match default with
  | Some body => body s
  | None => ret VUndefined
  end.
Proof.
  unfold labels.
  induction cases as [ | [label body] rest IH]; simpl; intros H; trivial.
  assert (Hl : strict_equals_string d label = false)
    by (apply strict_equals_string_false, H; now left).
  rewrite Hl. apply IH. intros tag Hin. apply H. now right.
Qed.

(** The first clause whose label equals [d] runs, whatever follows it. *)
Lemma switch_return_first (before after : list CaseClause)
    (label : string) (body : JsVal -> Exec JsVal) :
  (forall tag, In tag (labels before) -> d <> VStr tag) ->
  d = VStr label ->
  switch_return d (before ++ (label, body) :: after) default s = body s.
Proof.
  unfold labels.
  induction before as [ | [l b] rest IH]; simpl; intros H Hd.
  - apply strict_equals_string_true in Hd. now rewrite Hd.
  - assert (Hl : strict_equals_string d l = false)
      by (apply strict_equals_string_false, H; now left).
    rewrite Hl. apply IH; trivial. intros tag Hin. apply H. now right.
Qed.

Lemma matching_at_most_one (cases : list CaseClause) :
  NoDup (labels cases) -> (length (matching d cases) <= 1)%nat.
Proof.
  unfold matching, labels.
  induction cases as [ | [label body] rest IH]; simpl; intros Hnd.
  - lia.
  - inversion Hnd as [ | ? ? Hnotin Hrest]; subst.
    destruct (strict_equals_string d label) eqn:Hl.
    + apply strict_equals_string_true in Hl.
      assert (Hn : matching d rest = []).
      { apply matching_nil. intros tag Hin Hd. apply Hnotin.
        rewrite Hl in Hd. injection Hd as ->. exact Hin. }
      unfold matching in Hn. rewrite Hn. simpl. lia.
    + now apply IH.
Qed.

Lemma switch_return_Permutation (cases cases' : list CaseClause) :
  Permutation cases cases' ->
  NoDup (labels cases) ->
  switch_return d cases default s = switch_return d cases' default s.
Proof.
  unfold labels.
  induction 1 as [ | [l b] xs ys HP IH | [l1 b1] [l2 b2] xs
                 | xs ys zs HP1 IH1 HP2 IH2]; intros Hnd.
  - reflexivity.
  - simpl. inversion Hnd; subst. now rewrite IH.
  - simpl.
    destruct (strict_equals_string d l1) eqn:H1,
             (strict_equals_string d l2) eqn:H2; trivial.
    apply strict_equals_string_true in H1, H2.
    simpl in Hnd. inversion Hnd as [ | ? ? Hnotin _]; subst.
    exfalso. apply Hnotin. left. congruence.
  - rewrite IH1 by assumption. apply IH2.
    eapply Permutation_NoDup; [ | exact Hnd].
    now apply Permutation_map.
Qed.

End Switch.

Lemma switch_return_In (cases : list CaseClause)
    (default : option (JsVal -> Exec JsVal)) (s : JsVal)
    (tag : string) (h : JsVal -> Exec JsVal) :
  NoDup (labels cases) ->
  In (tag, h) cases ->
  switch_return (VStr tag) cases default s = h s.
Proof.
  intros Hnd Hin.
  destruct (in_split _ _ Hin) as [before [after ->]].
  apply switch_return_first; trivial.
  intros tag' Hin' [= <-].
  unfold labels in Hnd. rewrite map_app in Hnd. simpl in Hnd.
  apply NoDup_remove_2 in Hnd. apply Hnd, in_or_app. now left.
Qed.

Lemma pure_switch_return (d : JsVal) (cases : list CaseClause)
    (default : option (JsVal -> Exec JsVal)) (s : JsVal) :
  (forall c, In c cases -> pure (snd c s)) ->
  (forall body, default = Some body -> pure (body s)) ->
  pure (switch_return d cases default s).
Proof.
  intros Hc Hd.
  induction cases as [ | [label body] rest IH]; simpl.
  - destruct default as [body | ]; [now apply Hd | apply pure_ret].
  - destruct (strict_equals_string d label).
    + apply (Hc (label, body)). now left.
    + apply IH. intros c Hin. apply Hc. now right.
Qed.

Lemma NoDup_labels_logger : NoDup (labels logger_cases).
Proof.
  repeat constructor; simpl; intuition discriminate.
Qed.

Lemma NoDup_labels_logger2 : NoDup (labels logger2_cases).
Proof.
  repeat constructor; simpl; intuition discriminate.
Qed.

Lemma NoDup_labels_logger3 : NoDup (labels logger3_cases).
Proof.
  repeat constructor; simpl; intuition discriminate.
Qed.

Lemma NoDup_labels_logger4 : NoDup (labels logger4_cases).
Proof.
  repeat constructor; simpl; intuition discriminate.
Qed.

(** ** Facts about strings and [join] *)

Lemma append_assoc (a b c : string) :
  ((a ++ b) ++ c)%string = (a ++ b ++ c)%string.
Proof.
  induction a as [ | x a IH]; simpl; [reflexivity | now rewrite IH].
Qed.

Lemma append_nil_r (a : string) : (a ++ "")%string = a.
Proof.
  induction a as [ | x a IH]; simpl; [reflexivity | now rewrite IH].
Qed.

Lemma string_length_append (a b : string) :
  String.length (a ++ b) = (String.length a + String.length b)%nat.
Proof.
  induction a as [ | x a IH]; simpl; [reflexivity | now rewrite IH].
Qed.

Lemma length_string_of_list_ascii (l : list ascii) :
  String.length (string_of_list_ascii l) = length l.
Proof.
  induction l as [ | x l IH]; simpl; [reflexivity | now rewrite IH].
Qed.

Lemma length_list_ascii_of_string (s : string) :
  length (list_ascii_of_string s) = String.length s.
Proof.
  induction s as [ | x s IH]; simpl; [reflexivity | now rewrite IH].
Qed.

Lemma string_of_list_ascii_app (l1 l2 : list ascii) :
  string_of_list_ascii (l1 ++ l2) =
  (string_of_list_ascii l1 ++ string_of_list_ascii l2)%string.
Proof.
  induction l1 as [ | x l1 IH]; simpl; [reflexivity | now rewrite IH].
Qed.

Lemma String_split_empty_map (s : string) :
  String_split_empty s = map unit_string (list_ascii_of_string s).
Proof.
  induction s as [ | c s IH]; simpl; [reflexivity | now rewrite IH].
Qed.

Lemma join_loop_units (R : string) (l : list ascii) :
  join_loop "" R (map unit_string l) =
  Normal (R ++ string_of_list_ascii l)%string.
Proof.
  revert R. induction l as [ | c l IH]; intros R; simpl.
  - now rewrite append_nil_r.
  - rewrite IH. f_equal. now rewrite append_assoc.
Qed.

Lemma Array_join_units (l : list ascii) :
  Array_join (map unit_string l) "" = Normal (string_of_list_ascii l).
Proof.
  destruct l as [ | c l]; simpl; [reflexivity | ].
  now rewrite join_loop_units.
Qed.

Lemma spaces_S (k : nat) : spaces (S k) = String " " (spaces k).
Proof. reflexivity. Qed.

Lemma length_spaces (k : nat) : String.length (spaces k) = k.
Proof.
  unfold spaces. now rewrite length_string_of_list_ascii, repeat_length.
Qed.

Lemma join_loop_holes (R : string) (k : nat) :
  join_loop " " R (repeat None k) = Normal (R ++ spaces k)%string.
Proof.
  revert R. induction k as [ | k IH]; intros R; simpl.
  - now rewrite append_nil_r.
  - rewrite IH, spaces_S. f_equal.
    now rewrite append_assoc.
Qed.

Lemma Array_join_holes (k : nat) :
  Array_join (repeat None (S k)) " " = Normal (spaces k).
Proof.
  simpl. now rewrite join_loop_holes.
Qed.

Lemma reverse_eval (s : string) (w : World) :
  reverse s w =
  (Normal (VStr (string_of_list_ascii (rev (list_ascii_of_string s)))), w).
Proof.
  unfold reverse, bind, lift, Array_reverse.
  now rewrite String_split_empty_map, <- map_rev, Array_join_units.
Qed.

Lemma new_string_fits (s : string) :
  Z.of_nat (String.length s) <= max_string_length ->
  new_string s = Normal s.
Proof.
  intros H. unfold new_string. apply Z.leb_le in H. now rewrite H.
Qed.

Lemma new_string_long (s : string) :
  max_string_length < Z.of_nat (String.length s) ->
  new_string s = Throw RangeError.
Proof.
  intros H. unfold new_string. apply Z.leb_gt in H. now rewrite H.
Qed.

Lemma padLeft1_number_run (value : string) (n : Z) (w : World) :
  0 <= n <= 4294967294 ->
  padLeft1 value (VNum n) w =
  match
    cbind (new_string (spaces (Z.to_nat n)))
      (fun blanks => new_string (blanks ++ value))
  with
  | Normal padded => (Normal (VStr padded), w)
  | Throw e => (Throw e, w)
  end.
Proof.
  intros Hn. unfold padLeft1, bind, lift, Array_.
  replace ((0 <=? n + 1) && (n + 1 <=? 4294967295))%Z with true
    by (symmetry; apply andb_true_iff; split; apply Z.leb_le; lia).
  replace (Z.to_nat (n + 1)) with (S (Z.to_nat n)) by lia.
  rewrite Array_join_holes. cbn [cbind].
  now destruct (new_string (spaces (Z.to_nat n))) as [blanks | e].
Qed.

Lemma padLeft1_number (value : string) (n : Z) (w : World) :
  0 <= n ->
  n + Z.of_nat (String.length value) <= max_string_length ->
  padLeft1 value (VNum n) w =
  (Normal (VStr (spaces (Z.to_nat n) ++ value)), w).
Proof.
  intros Hn Hfit.
  rewrite padLeft1_number_run by (unfold max_string_length in Hfit; lia).
  rewrite new_string_fits by (rewrite length_spaces; lia).
  cbn [cbind].
  now rewrite new_string_fits
    by (rewrite string_length_append, length_spaces; lia).
Qed.

Lemma padLeft1_large (value : string) (n : Z) (w : World) :
  4294967294 < n -> padLeft1 value (VNum n) w = (Throw RangeError, w).
Proof.
  intros Hn. unfold padLeft1, bind, lift, Array_.
  replace (n + 1 <=? 4294967295)%Z with false
    by (symmetry; apply Z.leb_gt; lia).
  now rewrite andb_false_r.
Qed.

Lemma padLeft1_too_long (value : string) (n : Z) (w : World) :
  0 <= n ->
  max_string_length < n + Z.of_nat (String.length value) ->
  padLeft1 value (VNum n) w = (Throw RangeError, w).
Proof.
  intros Hn Hlong.
  destruct (Z_lt_le_dec 4294967294 n) as [Hbig | Hsmall];
    [now apply padLeft1_large | ].
  rewrite padLeft1_number_run by lia.
  destruct (Z_lt_le_dec max_string_length n) as [Hn1 | Hn1].
  - now rewrite new_string_long by (rewrite length_spaces; lia).
  - rewrite new_string_fits by (rewrite length_spaces; lia).
    cbn [cbind].
    now rewrite new_string_long
      by (rewrite string_length_append, length_spaces; lia).
Qed.

Lemma padLeft1_string (value p : string) (w : World) :
  Z.of_nat (String.length p) + Z.of_nat (String.length value) <=
  max_string_length ->
  padLeft1 value (VStr p) w = (Normal (VStr (p ++ value)), w).
Proof.
  intros Hfit. unfold padLeft1, bind, lift.
  now rewrite new_string_fits by (rewrite string_length_append; lia).
Qed.

Lemma padLeft1_other (value : string) (padding : JsVal) (w : World) :
  typeof padding <> "number" ->
  typeof padding <> "string" ->
  padLeft1 value padding w =
  match ToString padding with
  | Normal got =>
      (Throw (Error ("Expected string or number, got '" ++ got ++ "'.")), w)
  | Throw e => (Throw e, w)
  end.
Proof.
  intros Hnum Hstr.
  destruct padding; simpl in Hnum, Hstr; try congruence;
    unfold padLeft1, bind, lift;
    match goal with
    | |- context [ToString ?v] => now destruct (ToString v)
    end.
Qed.

Lemma GetV_throws (v : JsVal) (k : string) (e : JsError) :
  GetV v k = Throw e -> e = TypeError /\ (v = VUndefined \/ v = VNull).
Proof.
  destruct v; simpl; try discriminate.
  - intros [= <-]. auto.
  - intros [= <-]. auto.
  - destruct (assoc k props); discriminate.
Qed.

Lemma ToString_throws (v : JsVal) (e : JsError) :
  ToString v = Throw e -> e = TypeError.
Proof.
  destruct v as [ | | [ | ] | | | props]; simpl; try discriminate.
  destruct (assoc "toString" props); [now intros [= <-] | discriminate].
Qed.

(** ** Running the loggers *)

Lemma logger_run (s d : JsVal) (w : World) :
  GetV s "state" = Normal d ->
  logger s w = switch_return d logger_cases None s w.
Proof. intros H. unfold logger, bind, lift. now rewrite H. Qed.

Lemma logger2_run (s d : JsVal) (w : World) :
  GetV s "state" = Normal d ->
  logger2 s w = switch_return d logger2_cases None s w.
Proof. intros H. unfold logger2, bind, lift. now rewrite H. Qed.

Lemma logger3_run (s d : JsVal) (w : World) :
  GetV s "state" = Normal d ->
  logger3 s w = switch_return d logger3_cases None s w.
Proof. intros H. unfold logger3, bind, lift. now rewrite H. Qed.

Lemma logger4_run (s d : JsVal) (w : World) :
  GetV s "state" = Normal d ->
  logger4 s w = switch_return d logger4_cases (Some assertNever) s w.
Proof. intros H. unfold logger4, bind, lift. now rewrite H. Qed.

Lemma logger_loading (s : JsVal) (w : World) :
  NetworkLoadingState s ->
  logger s w = (Normal (VStr "Downloading..."), w).
Proof.
  intros H. now rewrite (logger_run s _ w (GetV_own _ _ _ H)).
Qed.

Lemma logger_failed (s : JsVal) (code : Z) (w : World) :
  own s "state" = Some (VStr "failed") ->
  own s "code" = Some (VNum code) ->
  logger s w =
  (Normal (VStr ("Error " ++ Number_toString code ++ " downloading")), w).
Proof.
  intros Hs Hc. rewrite (logger_run s _ w (GetV_own _ _ _ Hs)).
  cbn [switch_return logger_cases strict_equals_string String.eqb
       Ascii.eqb Bool.eqb].
  unfold bind. now rewrite (own_GetV _ _ _ Hc).
Qed.

Lemma logger_success (s r : JsVal) (title summary : string) (w : World) :
  own s "state" = Some (VStr "success") ->
  own s "response" = Some r ->
  own r "title" = Some (VStr title) ->
  own r "summary" = Some (VStr summary) ->
  logger s w =
  (Normal (VStr ("Downloaded " ++ title ++ " - " ++ summary)), w).
Proof.
  intros Hs Hr Ht Hm. rewrite (logger_run s _ w (GetV_own _ _ _ Hs)).
  cbn [switch_return logger_cases strict_equals_string String.eqb
       Ascii.eqb Bool.eqb].
  unfold bind, lift.
  rewrite (GetV_own _ _ _ Hr). cbn beta iota.
  rewrite (GetV_own _ _ _ Ht). cbn beta iota.
  rewrite (GetV_own _ _ _ Hm). reflexivity.
Qed.

Example logger_samples :
  logger loading_state [] = (Normal (VStr "Downloading..."), []) /\
  logger success_state [] =
  (Normal (VStr "Downloaded Intro - first steps"), []) /\
  logger4 from_cache_state [] = (Normal (VStr "cashed"), []) /\
  logger VUndefined [] = (Throw TypeError, []).
Proof. repeat split. Qed.

Lemma assertNever_run (x : JsVal) (w : World) :
  assertNever x w =
  match ToString x with
  | Normal str => (Throw (Error ("Unexpected object: " ++ str)), w)
  | Throw e => (Throw e, w)
  end.
Proof.
  unfold assertNever, bind, lift, throw. now destruct (ToString x).
Qed.


Lemma Permutation_labels_logger :
  Permutation (labels logger_cases) NetworkState_tags.
Proof.
  simpl. unfold NetworkState_tags.
  apply Permutation_sym, Permutation_rev.
Qed.

Lemma In_labels_case (cases : list CaseClause) (tag : string) :
  In tag (labels cases) -> exists h, In (tag, h) cases.
Proof.
  unfold labels. intros H. apply in_map_iff in H.
  destruct H as [[l h] [<- Hin]]. now exists h.
Qed.

(** ** The claims *)

(** C1.  A value whose [state] is a declared tag is routed to the clause
    labelled with that tag, and the function returns what that clause's body
    returns: this holds of any [switch] whose labels are pairwise distinct,
    and so of [logger] on the three tags of [NetworkState] and of [logger4]
    on the four tags of [NetworkState2], whose clauses carry exactly those
    tags.  On a well-typed value [logger] returns ["Downloading..."], the
    failed string built from [code] (a safe integer, printed in decimal), or
    the success string built from [title] and [summary]. *)
Theorem dispatch_routes_to_matching_handler
    (s : JsVal) (tag : string) (w : World) :
  own s "state" = Some (VStr tag) ->
  (forall cases default h,
      NoDup (labels cases) -> In (tag, h) cases ->
      switch_return (VStr tag) cases default s w = h s w) /\
  (Permutation (labels logger_cases) NetworkState_tags /\
   (In tag NetworkState_tags ->
    (exists h, In (tag, h) logger_cases) /\
    (forall h, In (tag, h) logger_cases -> logger s w = h s w))) /\
  (labels logger4_cases = NetworkState2_tags /\
   (In tag NetworkState2_tags ->
    (exists h, In (tag, h) logger4_cases) /\
    (forall h, In (tag, h) logger4_cases -> logger4 s w = h s w))) /\
  (NetworkLoadingState s ->
   logger s w = (Normal (VStr "Downloading..."), w)) /\
  (forall code,
      NetworkFailedState s -> own s "code" = Some (VNum code) ->
      safe_integer code ->
      logger s w =
      (Normal (VStr ("Error " ++ Number_toString code ++ " downloading")),
       w)) /\
  (forall r title summary,
      NetworkSuccessState s -> own s "response" = Some r ->
      own r "title" = Some (VStr title) ->
      own r "summary" = Some (VStr summary) ->
      logger s w =
      (Normal (VStr ("Downloaded " ++ title ++ " - " ++ summary)), w)).
Proof.
  intros Hs. repeat split.
  - intros cases default h Hnd Hin.
    now rewrite (switch_return_In cases default s tag h Hnd Hin).
  - apply Permutation_labels_logger.
  - apply In_labels_case.
    now apply (Permutation_in _ (Permutation_sym Permutation_labels_logger)).
  - intros h Hin. rewrite (logger_run s _ w (GetV_own _ _ _ Hs)).
    now rewrite (switch_return_In _ _ _ _ _ NoDup_labels_logger Hin).
  - now apply In_labels_case.
  - intros h Hin. rewrite (logger4_run s _ w (GetV_own _ _ _ Hs)).
    now rewrite (switch_return_In _ _ _ _ _ NoDup_labels_logger4 Hin).
  - apply logger_loading.
  - intros code [Hf _] Hc _. now apply logger_failed.
  - intros r title summary [Hsucc _] Hr Ht Hm.
    now apply (logger_success s r).
Qed.

Lemma dispatch_routes_to_matching_handler_witness :
  own failed_404 "state" = Some (VStr "failed") /\
  In "failed" NetworkState_tags /\
  NetworkFailedState failed_404 /\
  logger failed_404 [] = (Normal (VStr "Error 404 downloading"), []).
Proof.
  assert (Hs : own failed_404 "state" = Some (VStr "failed")) by reflexivity.
  assert (Hf : NetworkFailedState failed_404)
    by (split; [reflexivity | exists 404; reflexivity]).
  split; [exact Hs | split; [simpl; tauto | split; [exact Hf | ]]].
  destruct (dispatch_routes_to_matching_handler failed_404 "failed" [] Hs)
    as (_ & _ & _ & _ & Hfailed & _).
  apply (Hfailed 404); [exact Hf | reflexivity | unfold safe_integer; lia].
Defined.






(** C3, as stated, fails.  The [switch] of [logger2] and [logger3] omits
    the tag ["from_cache"] of [NetworkState2], and nothing fails before they
    run: on a [NetworkFromCachedState] value both run and return
    [undefined]. *)
Lemma incomplete_coverage_counterexample :
  missing_tags NetworkState2_tags logger2_cases = ["from_cache"] /\
  missing_tags NetworkState2_tags logger3_cases = ["from_cache"] /\
  NetworkFromCachedState from_cache_state /\
  logger2 from_cache_state [] = (Normal VUndefined, []) /\
  logger3 from_cache_state [] = (Normal VUndefined, []).
Proof.
  repeat split; try reflexivity.
  - now exists "a1".
  - exists response_sample. split; [reflexivity | ].
    exists "Intro", 12, "first steps". repeat split.
Qed.

(** C3, amended.  The clauses of [logger2] and of [logger3] omit exactly the
    tag ["from_cache"] of [NetworkState2] (those of [logger4] omit none), and
    no error is raised for it at run time: on every value whose [state] can
    be read and is not ["loading"], ["failed"] or ["success"], both
    functions return [undefined]. *)
Theorem incomplete_switch_returns_undefined (s d : JsVal) (w : World) :
  GetV s "state" = Normal d ->
  (forall tag, In tag ["loading"; "failed"; "success"] -> d <> VStr tag) ->
  missing_tags NetworkState2_tags logger2_cases = ["from_cache"] /\
  missing_tags NetworkState2_tags logger3_cases = ["from_cache"] /\
  missing_tags NetworkState2_tags logger4_cases = [] /\
  logger2 s w = (Normal VUndefined, w) /\
  logger3 s w = (Normal VUndefined, w).
Proof.
  intros Hs Hd. repeat split.
  - rewrite (logger2_run s d w Hs). now rewrite switch_return_unmatched.
  - rewrite (logger3_run s d w Hs). now rewrite switch_return_unmatched.
Qed.

Lemma incomplete_switch_returns_undefined_witness :
  GetV from_cache_state "state" = Normal (VStr "from_cache") /\
  logger2 from_cache_state [] = (Normal VUndefined, []) /\
  logger3 from_cache_state [] = (Normal VUndefined, []).
Proof.
  assert (Hs : GetV from_cache_state "state" = Normal (VStr "from_cache"))
    by reflexivity.
  assert (Hd : forall tag, In tag ["loading"; "failed"; "success"] ->
                           VStr "from_cache" <> VStr tag)
    by no_such_tag.
  destruct (incomplete_switch_returns_undefined from_cache_state _ [] Hs Hd)
    as (_ & _ & _ & H2 & H3).
  now repeat split.
Defined.

Lemma dispatch_on_logger (s : JsVal) (w : World) :
  logger s w = dispatch_on "state" logger_cases None s w /\
  logger4 s w = dispatch_on "state" logger4_cases (Some assertNever) s w.
Proof. split; reflexivity. Qed.

(** What [logger] itself answers to a failed value with code [404]: its
    failed clause appends [" downloading"]. *)
Example logger_failed_404 (w : World) :
  logger failed_404 w = (Normal (VStr "Error 404 downloading"), w).
Proof. reflexivity. Qed.


(** Not every function of the file is pure: [handleArtistsResponse] writes
    to the console. *)
Lemma handleArtistsResponse_writes (response : JsVal) :
  (exists message,
      own response "error" = Some (VObj [("message", VStr message)])) ->
  ~ pure (handleArtistsResponse response).
Proof.
  intros [message He] [c Hc].
  specialize (Hc []). unfold handleArtistsResponse, bind, lift in Hc.
  rewrite (GetV_own _ _ _ He) in Hc. simpl in Hc.
  discriminate.
Qed.

Lemma pure_assertNever (x : JsVal) : pure (assertNever x).
Proof.
  unfold assertNever. auto with purity.
Qed.

Lemma pure_logger (s : JsVal) : pure (logger s).
Proof.
  unfold logger. apply pure_bind; [apply pure_lift | intros d].
  apply pure_switch_return; [ | discriminate].
  intros c Hin. simpl in Hin.
  repeat (destruct Hin as [<- | Hin]; [simpl; auto 10 with purity | ]).
  contradiction.
Qed.

Lemma pure_logger4 (s : JsVal) : pure (logger4 s).
Proof.
  unfold logger4. apply pure_bind; [apply pure_lift | intros d].
  apply pure_switch_return.
  - intros c Hin. simpl in Hin.
    repeat (destruct Hin as [<- | Hin]; [simpl; auto 10 with purity | ]).
    contradiction.
  - intros body [= <-]. apply pure_assertNever.
Qed.

(** C6.  A [switch] does what the one body it selects does, and nothing
    else: completion and world after it are those of that body, whatever
    effects the bodies have.  The bodies of [logger] and [logger4] have
    none, so these functions leave the world as they found it and their
    completion is the same in every world: two runs on the same value give
    the same result. *)
Theorem dispatch_is_pure :
  (forall d cases default s w,
      switch_return d cases default s w = selected d cases default s w) /\
  (forall s w1 w2,
      fst (logger s w1) = fst (logger s w2) /\ snd (logger s w1) = w1) /\
  (forall s w1 w2,
      fst (logger4 s w1) = fst (logger4 s w2) /\ snd (logger4 s w1) = w1).
Proof.
  split; [ | split].
  - intros. now rewrite switch_return_selected.
  - intros s w1 w2. destruct (pure_logger s) as [c Hc].
    now rewrite (Hc w1), (Hc w2).
  - intros s w1 w2. destruct (pure_logger4 s) as [c Hc].
    now rewrite (Hc w1), (Hc w2).
Qed.

(** C7.  The tags of [NetworkState] and of [NetworkState2] are pairwise
    distinct, and so are the labels of the clauses of [logger] and
    [logger4]: at most one clause matches the [state] of any value, and the
    order of the clauses does not matter, since the [switch] over any
    rearrangement of them behaves the same. *)
Theorem tags_pairwise_distinct :
  NoDup NetworkState_tags /\
  NoDup NetworkState2_tags /\
  NoDup (labels logger_cases) /\
  NoDup (labels logger4_cases) /\
  (forall d,
      (length (matching d logger_cases) <= 1)%nat /\
      (length (matching d logger4_cases) <= 1)%nat) /\
  (forall d cases' default s w,
      Permutation logger_cases cases' ->
      switch_return d logger_cases default s w =
      switch_return d cases' default s w) /\
  (forall d cases' default s w,
      Permutation logger4_cases cases' ->
      switch_return d logger4_cases default s w =
      switch_return d cases' default s w).
Proof.
  assert (H1 := NoDup_labels_logger). assert (H4 := NoDup_labels_logger4).
  split; [ | split; [ | split; [ | split; [ | split; [ | split]]]]].
  - apply (Permutation_NoDup Permutation_labels_logger H1).
  - exact H4.
  - exact H1.
  - exact H4.
  - intros d. split; now apply matching_at_most_one.
  - intros d cases' default s w HP.
    now rewrite (switch_return_Permutation d default s _ _ HP H1).
  - intros d cases' default s w HP.
    now rewrite (switch_return_Permutation d default s _ _ HP H4).
Qed.

Lemma tags_pairwise_distinct_witness :
  Permutation logger4_cases (rev logger4_cases) /\
  switch_return (VStr "failed") (rev logger4_cases) (Some assertNever)
    failed_404 [] =
  (Normal (VStr "failed with code 404"), []).
Proof.
  split; [apply Permutation_rev | ].
  destruct tags_pairwise_distinct as (_ & _ & _ & _ & _ & _ & Hperm).
  rewrite <- (Hperm (VStr "failed") (rev logger4_cases) (Some assertNever)
                failed_404 [] (Permutation_rev logger4_cases)).
  reflexivity.
Defined.




(** C9, as stated, fails: [4294967295] is a natural number, and
    [padLeft1("Hello World", 4294967295)] returns no string, because
    [Array(4294967296)] throws a [RangeError]. *)
Lemma padLeft1_counterexample :
  0 <= 4294967295 /\
  padLeft1 "Hello World" (VNum 4294967295) [] = (Throw RangeError, []) /\
  forall r, padLeft1 "Hello World" (VNum 4294967295) [] <> (Normal r, []).
Proof.
  split; [lia | split; [reflexivity | ]].
  intros r H. rewrite padLeft1_large in H by lia. discriminate.
Qed.

(** C9, amended.  For every string [value] and every natural number [n]
    such that [n] spaces followed by [value] is no longer than the longest
    string the engine makes, [padLeft1(value, n)] returns [n] spaces
    followed by [value]; for every larger [n] it throws a [RangeError] and
    returns nothing.  For every [padding] that is neither a string nor a
    number, [padLeft1] throws: the error
    ["Expected string or number, got '...'."] built from the string
    conversion of [padding] when it has one. *)
Theorem padLeft1_pads (value : string) (w : World) :
  (forall n,
      0 <= n ->
      n + Z.of_nat (String.length value) <= max_string_length ->
      padLeft1 value (VNum n) w =
      (Normal (VStr (spaces (Z.to_nat n) ++ value)), w) /\
      String.length (spaces (Z.to_nat n)) = Z.to_nat n) /\
  (forall n,
      0 <= n ->
      max_string_length < n + Z.of_nat (String.length value) ->
      padLeft1 value (VNum n) w = (Throw RangeError, w)) /\
  (forall padding,
      typeof padding <> "number" ->
      typeof padding <> "string" ->
      (exists e, padLeft1 value padding w = (Throw e, w)) /\
      forall got,
        ToString padding = Normal got ->
        padLeft1 value padding w =
        (Throw (Error ("Expected string or number, got '" ++ got ++ "'.")),
         w)).
Proof.
  split; [ | split].
  - intros n Hn Hfit. split; [now apply padLeft1_number | apply length_spaces].
  - intros n Hn Hlong. now apply padLeft1_too_long.
  - intros padding Hnum Hstr.
    rewrite (padLeft1_other value padding w Hnum Hstr). split.
    + destruct (ToString padding); eauto.
    + now intros got ->.
Qed.

Lemma padLeft1_pads_witness :
  padLeft1 "Hello World" (VNum 4) [] =
  (Normal (VStr "    Hello World"), []) /\
  padLeft1 "Hello world" (VBool true) [] =
  (Throw (Error "Expected string or number, got 'true'."), []).
Proof.
  destruct (padLeft1_pads "Hello World" []) as [Hnum _].
  destruct (padLeft1_pads "Hello world" []) as [_ [_ Hother]].
  split.
  - apply (Hnum 4); [lia | unfold max_string_length; simpl; lia].
  - assert (Hn : typeof (VBool true) <> "number") by discriminate.
    assert (Hs : typeof (VBool true) <> "string") by discriminate.
    apply (proj2 (Hother (VBool true) Hn Hs) "true"). reflexivity.
Defined.

(** C10.  [reverse] returns a string on every string, [reverse] of that
    string is the original string, and the two have the same length. *)
Theorem reverse_involution (s : string) (w : World) :
  exists r,
    reverse s w = (Normal (VStr r), w) /\
    reverse r w = (Normal (VStr s), w) /\
    String.length r = String.length s.
Proof.
  exists (string_of_list_ascii (rev (list_ascii_of_string s))).
  split; [apply reverse_eval | split].
  - rewrite reverse_eval, list_ascii_of_string_of_list_ascii.
    now rewrite rev_involutive, string_of_list_ascii_of_string.
  - rewrite length_string_of_list_ascii, length_rev.
    apply length_list_ascii_of_string.
Qed.

(** * Further properties of the snippets *)

(** ** [padLeft1] *)

Lemma padLeft1_below (value : string) (n : Z) (w : World) :
  n < -1 -> padLeft1 value (VNum n) w = (Throw RangeError, w).
Proof.
  intros Hn. unfold padLeft1, bind, lift, Array_.
  replace (0 <=? n + 1)%Z with false by (symmetry; apply Z.leb_gt; lia).
  reflexivity.
Qed.

Lemma new_string_Normal (s p : string) :
  new_string s = Normal p ->
  p = s /\ Z.of_nat (String.length s) <= max_string_length.
Proof.
  unfold new_string.
  destruct (Z.of_nat (String.length s) <=? max_string_length)%Z eqn:H;
    [ | discriminate].
  intros [= <-]. apply Z.leb_le in H. now split.
Qed.

Lemma padLeft1_minus_one (value : string) (w : World) :
  padLeft1 value (VNum (-1)) w =
  match new_string value with
  | Normal padded => (Normal (VStr padded), w)
  | Throw e => (Throw e, w)
  end.
Proof.
  unfold padLeft1, bind, lift. cbn [Z.add Z.pos_sub Z.opp].
  change (Array_ 0) with (Normal (@nil (option JsVal))).
  cbn [Array_join cbind].
  change (new_string "") with (Normal "").
  cbn [append]. now destruct (new_string value).
Qed.

Lemma padLeft1_in_range (value : string) (n : Z) (w : World) :
  Z.of_nat (String.length value) <= max_string_length ->
  -1 <= n ->
  n + Z.of_nat (String.length value) <= max_string_length ->
  padLeft1 value (VNum n) w =
  (Normal (VStr (spaces (Z.to_nat n) ++ value)), w).
Proof.
  intros Hv Hn Hfit. destruct (Z.eq_dec n (-1)) as [-> | Hne].
  - rewrite padLeft1_minus_one. now rewrite new_string_fits.
  - apply padLeft1_number; lia.
Qed.

Lemma padLeft1_number_returns
    (value : string) (n : Z) (r : JsVal) (w w' : World) :
  padLeft1 value (VNum n) w = (Normal r, w') ->
  w' = w /\ r = VStr (spaces (Z.to_nat n) ++ value) /\
  -1 <= n /\
  Z.of_nat (String.length (spaces (Z.to_nat n) ++ value)) <=
  max_string_length.
Proof.
  intros H.
  destruct (Z_lt_le_dec n (-1)) as [Hlo | Hlo].
  { rewrite padLeft1_below in H by assumption. discriminate. }
  destruct (Z_lt_le_dec 4294967294 n) as [Hhi | Hhi].
  { rewrite padLeft1_large in H by assumption. discriminate. }
  destruct (Z.eq_dec n (-1)) as [-> | Hne].
  - rewrite padLeft1_minus_one in H.
    destruct (new_string value) as [p | e] eqn:Hp; [ | discriminate].
    apply new_string_Normal in Hp. destruct Hp as [-> Hp].
    injection H as <- <-. simpl. auto.
  - rewrite padLeft1_number_run in H by lia.
    destruct (new_string (spaces (Z.to_nat n))) as [blanks | e] eqn:Hb;
      [ | discriminate].
    apply new_string_Normal in Hb. destruct Hb as [-> _]. cbn [cbind] in H.
    destruct (new_string (spaces (Z.to_nat n) ++ value)) as [p | e] eqn:Hp;
      [ | discriminate].
    apply new_string_Normal in Hp. destruct Hp as [-> Hp].
    injection H as <- <-. auto.
Qed.

Lemma spaces_add (a b : nat) :
  spaces (a + b) = (spaces a ++ spaces b)%string.
Proof.
  unfold spaces. now rewrite repeat_app, string_of_list_ascii_app.
Qed.

(** X1.  For a string [value] the engine holds, a numeric padding [n] is
    accepted exactly when it is at least [-1] and [n] spaces followed by
    [value] are no longer than the longest string the engine makes: then
    [padLeft1] returns [value] behind [n] spaces (none for [-1] and [0]),
    and otherwise the call throws a [RangeError] and returns nothing. *)
Theorem padLeft1_number_range (value : string) (n : Z) (w : World) :
  Z.of_nat (String.length value) <= max_string_length ->
  (-1 <= n ->
   n + Z.of_nat (String.length value) <= max_string_length ->
   padLeft1 value (VNum n) w =
   (Normal (VStr (spaces (Z.to_nat n) ++ value)), w)) /\
  (n < -1 \/ max_string_length < n + Z.of_nat (String.length value) ->
   padLeft1 value (VNum n) w = (Throw RangeError, w)) /\
  ((exists r, padLeft1 value (VNum n) w = (Normal r, w)) <->
   -1 <= n /\ n + Z.of_nat (String.length value) <= max_string_length).
Proof.
  intros Hv.
  assert (Hthrow :
            n < -1 \/ max_string_length < n + Z.of_nat (String.length value) ->
            padLeft1 value (VNum n) w = (Throw RangeError, w)).
  { intros [Hn | Hn]; [now apply padLeft1_below | ].
    destruct (Z_lt_le_dec n 0) as [Hneg | Hpos]; [ | now apply padLeft1_too_long].
    destruct (Z_lt_le_dec n (-1)) as [Hlo | Hlo]; [now apply padLeft1_below | ].
    lia. }
  split; [now apply padLeft1_in_range | split; [exact Hthrow | ]].
  split.
  - intros [r Hr].
    destruct (Z_lt_le_dec n (-1)) as [Hlo | Hlo].
    { rewrite Hthrow in Hr by auto. discriminate. }
    destruct (Z_lt_le_dec max_string_length
                (n + Z.of_nat (String.length value))) as [Hhi | Hhi].
    { rewrite Hthrow in Hr by auto. discriminate. }
    lia.
  - intros [Hn Hfit]. eexists. now apply padLeft1_in_range.
Qed.

Lemma padLeft1_number_range_witness :
  padLeft1 "Hello" (VNum (-1)) [] = (Normal (VStr "Hello"), []) /\
  padLeft1 "Hello" (VNum 2) [] = (Normal (VStr "  Hello"), []) /\
  padLeft1 "Hello" (VNum (-2)) [] = (Throw RangeError, []) /\
  padLeft1 "Hello" (VNum 536870884) [] = (Throw RangeError, []).
Proof.
  assert (Hv : Z.of_nat (String.length "Hello") <= max_string_length)
    by (unfold max_string_length; simpl; lia).
  split; [ | split; [ | split]].
  - apply (proj1 (padLeft1_number_range "Hello" (-1) [] Hv));
      unfold max_string_length; simpl; lia.
  - apply (proj1 (padLeft1_number_range "Hello" 2 [] Hv));
      unfold max_string_length; simpl; lia.
  - apply (proj1 (proj2 (padLeft1_number_range "Hello" (-2) [] Hv))).
    left. lia.
  - apply (proj1 (proj2 (padLeft1_number_range "Hello" 536870884 [] Hv))).
    right. unfold max_string_length. simpl. lia.
Defined.

(** X2.  Padding by a number and padding by the string of that many spaces
    are the same call: for [n >= 0] such that [n] spaces followed by [value]
    are no longer than the longest string the engine makes,
    [padLeft1(value, n)] and [padLeft1(value, " ".repeat(n))] return the
    same string, whose length is [n] more than that of [value]. *)
Theorem padLeft1_number_as_string (value : string) (n : Z) (w : World) :
  0 <= n ->
  n + Z.of_nat (String.length value) <= max_string_length ->
  padLeft1 value (VNum n) w = padLeft1 value (VStr (spaces (Z.to_nat n))) w /\
  exists r,
    padLeft1 value (VNum n) w = (Normal (VStr r), w) /\
    Z.of_nat (String.length r) = n + Z.of_nat (String.length value).
Proof.
  intros Hn Hfit. rewrite padLeft1_number by assumption.
  rewrite padLeft1_string by (rewrite length_spaces; lia).
  split; [reflexivity | ].
  eexists. split; [reflexivity | ].
  rewrite string_length_append, length_spaces. lia.
Qed.

Lemma padLeft1_number_as_string_witness :
  padLeft1 "Hello" (VNum 3) [] = padLeft1 "Hello" (VStr "   ") [].
Proof.
  refine (proj1 (padLeft1_number_as_string "Hello" 3 [] _ _));
    unfold max_string_length; simpl; lia.
Defined.

(** X3.  Padding composes: padding the result of [padLeft1(value, n)] by
    [m] is padding [value] by [n + m], as long as [n + m] spaces followed
    by [value] are no longer than the longest string the engine makes. *)
Theorem padLeft1_compose (value : string) (n m : Z) (w : World) :
  0 <= n -> 0 <= m ->
  n + m + Z.of_nat (String.length value) <= max_string_length ->
  exists r,
    padLeft1 value (VNum n) w = (Normal (VStr r), w) /\
    padLeft1 r (VNum m) w = padLeft1 value (VNum (n + m)) w.
Proof.
  intros Hn Hm Hfit. eexists. split.
  - apply padLeft1_number; lia.
  - rewrite padLeft1_number; [ | lia | ].
    + rewrite padLeft1_number by lia.
      replace (Z.to_nat (n + m)) with (Z.to_nat m + Z.to_nat n)%nat by lia.
      now rewrite spaces_add, append_assoc.
    + rewrite string_length_append, length_spaces. lia.
Qed.

Lemma padLeft1_compose_witness :
  exists r,
    padLeft1 "Hello" (VNum 1) [] = (Normal (VStr r), []) /\
    padLeft1 r (VNum 2) [] = padLeft1 "Hello" (VNum 3) [].
Proof.
  refine (padLeft1_compose "Hello" 1 2 [] _ _ _);
    unfold max_string_length; simpl; lia.
Defined.

(** X4.  Whatever the padding, a call of [padLeft1] that returns leaves the
    console alone and returns a string that ends with [value]; it never
    returns [undefined] or any other value. *)
Theorem padLeft1_returns_suffix
    (value : string) (padding r : JsVal) (w w' : World) :
  padLeft1 value padding w = (Normal r, w') ->
  w' = w /\ exists p, r = VStr (p ++ value).
Proof.
  intros H. destruct padding as [ | | b | n | p | props].
  - discriminate.
  - discriminate.
  - destruct b; discriminate.
  - apply padLeft1_number_returns in H. destruct H as (-> & -> & _). eauto.
  - unfold padLeft1, bind, lift in H.
    destruct (new_string (p ++ value)) as [padded | e] eqn:Hp;
      [ | discriminate].
    apply new_string_Normal in Hp. destruct Hp as [-> _].
    injection H as <- <-. eauto.
  - unfold padLeft1, bind, lift in H. destruct (ToString (VObj props));
      discriminate.
Qed.

Lemma padLeft1_returns_suffix_witness :
  [] = ([] : World) /\ exists p, VStr "ab Hello" = VStr (p ++ "Hello").
Proof.
  refine (padLeft1_returns_suffix "Hello" (VStr "ab ") _ [] [] _).
  reflexivity.
Defined.

(** ** The loggers *)

Lemma GetV_missing (v : JsVal) (k k' : string) (x : JsVal) :
  own v k' = Some x -> own v k = None -> GetV v k = Normal VUndefined.
Proof.
  destruct v; simpl; try discriminate.
  now intros _ ->.
Qed.

(** Splits a goal about a logger along the outcome of reading [state] and
    of each test of the [switch], then along the reads and conversions of
    the body reached. *)
Ltac logger_outcomes s :=
  unfold logger, logger2, logger3, logger4, bind, lift;
  let d := fresh "d" in
  let e := fresh "e" in
  let Hd := fresh "Hd" in
  destruct (GetV s "state") as [d | e] eqn:Hd;
  [ cbn [switch_return logger_cases logger2_cases logger3_cases
         logger4_cases];
    repeat match goal with
      | |- context [strict_equals_string d ?l] =>
          let Ht := fresh "Ht" in
          destruct (strict_equals_string d l) eqn:Ht
      end;
    unfold bind, lift, ret;
    repeat match goal with
      | |- context [GetV ?v ?k] =>
          let Hg := fresh "Hg" in destruct (GetV v k) eqn:Hg
      | |- context [ToString ?v] =>
          let Hc := fresh "Hc" in destruct (ToString v) eqn:Hc
      end
  | ].

(** X5.  [logger4] is exhaustive on [NetworkState2]: on every value of that
    type it returns a string, namely ["loading request"],
    ["failed with code "] followed by the code (a safe integer, printed in
    decimal), ["got response"] or ["cashed"] according to the variant, and
    it never reaches [assertNever]. *)
Theorem logger4_exhaustive (s : JsVal) (w : World) :
  NetworkState2 s ->
  (exists str, logger4 s w = (Normal (VStr str), w)) /\
  (NetworkLoadingState s ->
   logger4 s w = (Normal (VStr "loading request"), w)) /\
  (forall code,
      NetworkFailedState s -> own s "code" = Some (VNum code) ->
      safe_integer code ->
      logger4 s w =
      (Normal (VStr ("failed with code " ++ Number_toString code)), w)) /\
  (NetworkSuccessState s ->
   logger4 s w = (Normal (VStr "got response"), w)) /\
  (NetworkFromCachedState s ->
   logger4 s w = (Normal (VStr "cashed"), w)).
Proof.
  intros Hty.
  assert (Hl : NetworkLoadingState s ->
               logger4 s w = (Normal (VStr "loading request"), w)).
  { intros H. now rewrite (logger4_run s _ w (GetV_own _ _ _ H)). }
  assert (Hf : forall code,
             NetworkFailedState s -> own s "code" = Some (VNum code) ->
             logger4 s w =
             (Normal (VStr ("failed with code " ++ Number_toString code)),
              w)).
  { intros code [H _] Hc. rewrite (logger4_run s _ w (GetV_own _ _ _ H)).
    cbn [switch_return logger4_cases strict_equals_string String.eqb
         Ascii.eqb Bool.eqb].
    unfold bind. now rewrite (own_GetV _ _ _ Hc). }
  assert (Hs : NetworkSuccessState s ->
               logger4 s w = (Normal (VStr "got response"), w)).
  { intros [H _]. now rewrite (logger4_run s _ w (GetV_own _ _ _ H)). }
  assert (Hc : NetworkFromCachedState s ->
               logger4 s w = (Normal (VStr "cashed"), w)).
  { intros [H _]. now rewrite (logger4_run s _ w (GetV_own _ _ _ H)). }
  split; [ | split; [exact Hl | split; [ | split; [exact Hs | exact Hc]]]].
  - destruct Hty as [H | [H | [H | H]]].
    + eauto.
    + destruct H as [Hst [code Hcode]]. eexists.
      apply (Hf code); [now split; eauto | exact Hcode].
    + eauto.
    + eauto.
  - intros code Hfailed Hcode _. now apply Hf.
Qed.

Lemma logger4_exhaustive_witness :
  NetworkState2 from_cache_state /\
  logger4 from_cache_state [] = (Normal (VStr "cashed"), []).
Proof.
  assert (Hr : Response response_sample)
    by (exists "Intro", 12, "first steps"; repeat split).
  assert (Hc : NetworkFromCachedState from_cache_state).
  { split; [reflexivity | split; [now exists "a1" | ]].
    exists response_sample. now split. }
  assert (Hty : NetworkState2 from_cache_state) by (right; right; now right).
  split; [exact Hty | ].
  apply (proj2 (proj2 (proj2 (proj2
    (logger4_exhaustive from_cache_state [] Hty))))).
  exact Hc.
Defined.



(** X7.  What the loggers can throw.  [logger] and [logger3] make no error
    of their own: whatever they throw is the [TypeError] of a failed read or
    string conversion, and the console is as they found it.  [logger4]
    throws, besides that, only the [Error] of [assertNever], and only for a
    value whose [state] is none of its four labels. *)
Theorem loggers_throw_only (s : JsVal) (e : JsError) (w w' : World) :
  (logger s w = (Throw e, w') -> e = TypeError /\ w' = w) /\
  (logger3 s w = (Throw e, w') -> e = TypeError /\ w' = w) /\
  (logger4 s w = (Throw e, w') ->
   w' = w /\
   (e = TypeError \/
    exists d str,
      GetV s "state" = Normal d /\
      (forall tag, In tag NetworkState2_tags -> d <> VStr tag) /\
      ToString s = Normal str /\
      e = Error ("Unexpected object: " ++ str))).
Proof.
  split; [ | split].
  - logger_outcomes s; intros [= <- <-]; try discriminate;
      repeat match goal with
        | H : GetV _ _ = Throw _ |- _ => apply GetV_throws in H; destruct H
        | H : ToString _ = Throw _ |- _ => apply ToString_throws in H
        end; auto.
  - logger_outcomes s; intros [= <- <-]; try discriminate;
      repeat match goal with
        | H : GetV _ _ = Throw _ |- _ => apply GetV_throws in H; destruct H
        | H : ToString _ = Throw _ |- _ => apply ToString_throws in H
        end; auto.
  - destruct (GetV s "state") as [d | e0] eqn:Hd.
    + rewrite (logger4_run s d w Hd).
      cbn [switch_return logger4_cases].
      destruct (strict_equals_string d "loading") eqn:H1;
        [discriminate | ].
      destruct (strict_equals_string d "failed") eqn:H2.
      { unfold bind, lift, ret.
        destruct (GetV s "code") eqn:Hg; [ | ].
        - destruct (ToString a) eqn:Hc; [discriminate | ].
          intros [= <- <-]. apply ToString_throws in Hc. auto.
        - intros [= <- <-]. apply GetV_throws in Hg. destruct Hg. auto. }
      destruct (strict_equals_string d "success") eqn:H3;
        [discriminate | ].
      destruct (strict_equals_string d "from_cache") eqn:H4;
        [discriminate | ].
      rewrite assertNever_run. destruct (ToString s) as [str | e1] eqn:Hc.
      * intros [= <- <-]. split; [reflexivity | right].
        exists d, str. repeat split; trivial.
        apply strict_equals_string_false in H1, H2, H3, H4.
        intros tag [<- | [<- | [<- | [<- | []]]]]; assumption.
      * intros [= <- <-]. apply ToString_throws in Hc. auto.
    + unfold logger4, bind, lift. rewrite Hd. intros [= <- <-].
      apply GetV_throws in Hd. destruct Hd. auto.
Qed.

Lemma loggers_throw_only_witness :
  logger VNull [] = (Throw TypeError, []) /\
  (TypeError = TypeError /\ ([] : World) = []).
Proof.
  split; [reflexivity | ].
  refine (proj1 (loggers_throw_only VNull TypeError [] []) _).
  reflexivity.
Defined.

(** X8.  [logger4] extends [logger3] (and [logger2], which is the same
    function): whenever [logger3] gives anything but [undefined], [logger4]
    and [logger2] give exactly the same; the two differ only where
    [logger3] returns [undefined]. *)
Theorem logger4_extends_logger3 (s : JsVal) (w : World) :
  logger2 s w = logger3 s w /\
  (logger3 s w <> (Normal VUndefined, w) -> logger4 s w = logger3 s w) /\
  (logger4 s w <> logger3 s w -> logger3 s w = (Normal VUndefined, w)).
Proof.
  split; [reflexivity | ].
  assert (H : logger4 s w = logger3 s w \/
              logger3 s w = (Normal VUndefined, w)).
  { unfold logger3, logger4, bind, lift.
    destruct (GetV s "state") as [d | e]; [ | now left].
    cbn [switch_return logger3_cases logger4_cases].
    destruct (strict_equals_string d "loading"); [now left | ].
    destruct (strict_equals_string d "failed"); [now left | ].
    destruct (strict_equals_string d "success"); [now left | ].
    now right. }
  split; intros Hne; destruct H as [H | H]; congruence.
Qed.

Lemma logger4_extends_logger3_witness :
  logger4 failed_404 [] = logger3 failed_404 [].
Proof.
  refine (proj1 (proj2 (logger4_extends_logger3 failed_404 [])) _).
  discriminate.
Defined.

(** X9.  Missing payload.  A value tagged ["failed"] that has no [code] is
    still answered, with the text of [undefined] in the message; a value
    tagged ["success"] that has no [response] makes [logger] throw a
    [TypeError], since the title is read from [undefined]. *)
Theorem logger_missing_payload (s : JsVal) (w : World) :
  (own s "state" = Some (VStr "failed") -> own s "code" = None ->
   logger s w = (Normal (VStr "Error undefined downloading"), w)) /\
  (own s "state" = Some (VStr "success") -> own s "response" = None ->
   logger s w = (Throw TypeError, w)).
Proof.
  split; intros Hs Hmiss;
    rewrite (logger_run s _ w (GetV_own _ _ _ Hs));
    cbn [switch_return logger_cases strict_equals_string String.eqb
         Ascii.eqb Bool.eqb];
    unfold bind, lift;
    now rewrite (GetV_missing _ _ _ _ Hs Hmiss).
Qed.

Lemma logger_missing_payload_witness :
  logger (VObj [("state", VStr "failed")]) [] =
  (Normal (VStr "Error undefined downloading"), []) /\
  logger (VObj [("state", VStr "success")]) [] = (Throw TypeError, []).
Proof.
  split.
  - apply (proj1 (logger_missing_payload _ [])); reflexivity.
  - apply (proj2 (logger_missing_payload _ [])); reflexivity.
Defined.

(** ** [handleArtistsResponse] *)

(** X10.  [handleArtistsResponse] writes to the console exactly once per
    call that returns, and always returns [undefined]; the only calls that
    throw are those on [undefined] or [null], and they write nothing. *)
Theorem handleArtistsResponse_writes_once (response : JsVal) (w : World) :
  (response <> VUndefined -> response <> VNull ->
   exists entry,
     handleArtistsResponse response w = (Normal VUndefined, w ++ [entry])) /\
  (response = VUndefined \/ response = VNull ->
   handleArtistsResponse response w = (Throw TypeError, w)).
Proof.
  split.
  - intros Hu Hn. unfold handleArtistsResponse, bind, lift.
    destruct (GetV response "error") as [err | e] eqn:He.
    + destruct (ToBoolean err) eqn:Hb.
      * destruct (GetV err "message") as [m | e] eqn:Hm.
        { eexists. reflexivity. }
        apply GetV_throws in Hm. destruct Hm as [_ [-> | ->]]; discriminate.
      * destruct (GetV response "artists") as [a | e] eqn:Ha.
        { eexists. reflexivity. }
        apply GetV_throws in Ha. destruct Ha as [_ [-> | ->]]; contradiction.
    + apply GetV_throws in He. destruct He as [_ [-> | ->]]; contradiction.
  - intros [-> | ->]; reflexivity.
Qed.

Lemma handleArtistsResponse_writes_once_witness :
  (exists entry,
      handleArtistsResponse (VObj [("success", VBool true)]) [] =
      (Normal VUndefined, [] ++ [entry])) /\
  handleArtistsResponse VNull [] = (Throw TypeError, []).
Proof.
  split.
  - apply (proj1 (handleArtistsResponse_writes_once _ [])); discriminate.
  - apply (proj2 (handleArtistsResponse_writes_once _ [])). now right.
Defined.

(** X11.  On a well-typed response the error wins: when [error] is present,
    the one thing written is its [message], on the error channel, and
    [artists] is not written; when [error] is absent, the one thing written
    is [artists], on the log channel. *)
Theorem handleArtistsResponse_error_first (response : JsVal) (w : World) :
  ArtistsResponse response ->
  exists artists,
    own response "artists" = Some artists /\
    ((own response "error" = None /\
      handleArtistsResponse response w =
      (Normal VUndefined, w ++ [ConsoleLog artists])) \/
     (exists e message,
         own response "error" = Some (VObj e) /\
         assoc "message" e = Some (VStr message) /\
         handleArtistsResponse response w =
         (Normal VUndefined, w ++ [ConsoleError (VStr message)]))).
Proof.
  intros [[artists Ha] [He | [e [message [He Hm]]]]];
    exists artists; (split; [exact Ha | ]).
  - left. split; [exact He | ].
    unfold handleArtistsResponse, bind, lift.
    rewrite (GetV_missing _ _ _ _ Ha He). cbn [ToBoolean].
    now rewrite (GetV_own _ _ _ Ha).
  - right. exists e, message. repeat split; trivial.
    unfold handleArtistsResponse, bind, lift.
    rewrite (GetV_own _ _ _ He). cbn [ToBoolean].
    cbn [GetV]. now rewrite Hm.
Qed.

Lemma handleArtistsResponse_error_first_witness :
  ArtistsResponse failed_response /\
  handleArtistsResponse failed_response [] =
  (Normal VUndefined, [ConsoleError (VStr "not found")]).
Proof.
  assert (Hty : ArtistsResponse failed_response).
  { split; [now exists (VStr "none") | right].
    now exists [("message", VStr "not found")], "not found". }
  split; [exact Hty | ].
  destruct (handleArtistsResponse_error_first failed_response [] Hty)
    as [artists [_ [[He _] | [e [message [He [Hm H]]]]]]].
  - discriminate He.
  - injection He as <-. injection Hm as <-. exact H.
Defined.

(** ** Compiled enums *)

Lemma assoc_put_own_same (ps : list (string * JsVal)) (k : string)
    (v : JsVal) :
  assoc k (put_own ps k v) = Some v.
Proof.
  induction ps as [ | [k' v'] ps IH]; simpl.
  - now rewrite String.eqb_refl.
  - destruct (String.eqb k k') eqn:Hk; simpl; rewrite Hk; trivial.
Qed.

Lemma assoc_put_own_other (ps : list (string * JsVal)) (k k' : string)
    (v : JsVal) :
  k <> k' -> assoc k' (put_own ps k v) = assoc k' ps.
Proof.
  intros Hne. induction ps as [ | [k0 v0] ps IH]; simpl.
  - apply not_eq_sym in Hne. apply String.eqb_neq in Hne. now rewrite Hne.
  - destruct (String.eqb k k0) eqn:Hk; simpl.
    + apply String.eqb_eq in Hk. subst k0.
      apply not_eq_sym in Hne. apply String.eqb_neq in Hne. now rewrite Hne.
    + now rewrite IH.
Qed.

Lemma assoc_put_same (ps : list (string * JsVal)) (k : string) (v : JsVal) :
  k <> "__proto__" -> assoc k (put ps k v) = Some v.
Proof.
  intros Hk. unfold put. apply String.eqb_neq in Hk. rewrite Hk.
  apply assoc_put_own_same.
Qed.

Lemma assoc_put_other (ps : list (string * JsVal)) (k k' : string)
    (v : JsVal) :
  k <> k' -> assoc k' (put ps k v) = assoc k' ps.
Proof.
  intros Hne. unfold put. destruct (String.eqb k "__proto__"); trivial.
  now apply assoc_put_own_other.
Qed.

Lemma Number_toString_not_proto (n : Z) : Number_toString n <> "__proto__".
Proof.
  unfold Number_toString. intros H.
  destruct (Z.to_int n) as [u | u]; simpl in H.
  - destruct u; simpl in H; discriminate.
  - discriminate.
Qed.

Lemma Number_toString_inj (a b : Z) :
  Number_toString a = Number_toString b -> a = b.
Proof.
  assert (Hnil : forall z, Z.to_int z <> Decimal.Pos Decimal.Nil /\
                           Z.to_int z <> Decimal.Neg Decimal.Nil).
  { intros z. split; intros H; pose proof (f_equal Z.of_int H) as H';
      rewrite DecimalZ.of_to in H'; simpl in H'; subst z; discriminate H. }
  unfold Number_toString. intros H.
  apply (f_equal NilZero.int_of_string) in H.
  rewrite !NilZero.isi in H by apply Hnil.
  injection H as H. now apply DecimalZ.to_int_inj.
Qed.

Lemma enum_props_lookup (members : list (string * Z)) :
  NoDup (map fst members) ->
  NoDup (map snd members) ->
  ~ In "__proto__" (map fst members) ->
  (forall n v, In n (map fst members) -> In v (map snd members) ->
               n <> Number_toString v) ->
  forall n v, In (n, v) members ->
    assoc n (enum_props members) = Some (VNum v) /\
    assoc (Number_toString v) (enum_props members) = Some (VStr n).
Proof.
  unfold enum_props.
  induction members as [ | [n0 v0] l IH] using rev_ind;
    intros Hn Hv Hproto Hdis n v Hin; [contradiction | ].
  rewrite map_app in Hn, Hv, Hproto. simpl in Hn, Hv, Hproto.
  apply NoDup_remove in Hn, Hv. rewrite app_nil_r in Hn, Hv.
  destruct Hn as [Hn Hn0], Hv as [Hv Hv0].
  assert (Hproto0 : n0 <> "__proto__").
  { intros ->. apply Hproto, in_or_app. right. now left. }
  assert (Hprotol : ~ In "__proto__" (map fst l)).
  { intros H. apply Hproto, in_or_app. now left. }
  assert (Hdis0 : n0 <> Number_toString v0).
  { apply Hdis; rewrite map_app; apply in_or_app; right; now left. }
  rewrite fold_left_app. simpl. unfold enum_member.
  apply in_app_or in Hin. destruct Hin as [Hin | [[= <- <-] | []]].
  - assert (Hfst : In n (map fst l)) by (apply (in_map fst _ _ Hin)).
    assert (Hsnd : In v (map snd l)) by (apply (in_map snd _ _ Hin)).
    destruct (IH Hn Hv Hprotol) with (n := n) (v := v) as [IH1 IH2];
      trivial.
    { intros n' v' Hn' Hv'. apply Hdis; rewrite map_app; apply in_or_app;
        now left. }
    split.
    + rewrite assoc_put_other, assoc_put_other; trivial.
      * intros <-. contradiction.
      * intros E. apply (Hdis n v0); [ | | now symmetry];
          rewrite map_app; apply in_or_app; [now left | right; now left].
    + rewrite assoc_put_other, assoc_put_other; trivial.
      * intros E. apply (Hdis n0 v); [ | | exact E];
          rewrite map_app; apply in_or_app; [right; now left | now left].
      * intros E. apply Number_toString_inj in E. subst v0. contradiction.
  - split.
    + rewrite assoc_put_other by (now apply not_eq_sym).
      now apply assoc_put_same.
    + apply assoc_put_same, Number_toString_not_proto.
Qed.

(** X12.  The two mappings of a compiled enum invert each other.  For an
    enum whose member names are pairwise distinct and not [__proto__],
    whose values are pairwise distinct safe integers, and none of whose
    names is the decimal text of one of its values, every member
    [name = value] can be read both ways on the enum object: [E.name] is
    [value] and [E[value]] is ["name"]. *)
Theorem enum_reverse_mapping (members : list (string * Z)) :
  NoDup (map fst members) ->
  NoDup (map snd members) ->
  ~ In "__proto__" (map fst members) ->
  (forall v, In v (map snd members) -> safe_integer v) ->
  (forall n v, In n (map fst members) -> In v (map snd members) ->
               n <> Number_toString v) ->
  forall n v, In (n, v) members ->
    GetV (build_enum members) n = Normal (VNum v) /\
    GetV_computed (build_enum members) (VNum v) = Normal (VStr n) /\
    (forall x, GetV (build_enum members) n = Normal x ->
               GetV_computed (build_enum members) x = Normal (VStr n)).
Proof.
  intros Hn Hv Hproto _ Hdis n v Hin.
  destruct (enum_props_lookup members Hn Hv Hproto Hdis n v Hin) as [H1 H2].
  assert (G1 : GetV (build_enum members) n = Normal (VNum v)).
  { unfold build_enum. cbn [GetV]. fold (enum_props members).
    now rewrite H1. }
  assert (G2 : GetV_computed (build_enum members) (VNum v) =
               Normal (VStr n)).
  { unfold GetV_computed, build_enum. cbn [ToString cbind GetV].
    fold (enum_props members). now rewrite H2. }
  split; [exact G1 | split; [exact G2 | ]].
  intros x Hx. rewrite G1 in Hx. injection Hx as <-. exact G2.
Qed.

Lemma enum_reverse_mapping_witness :
  GetV Color4 "Green" = Normal (VNum 2) /\
  colorName = Normal (VStr "Green").
Proof.
  assert (Hn : NoDup (map fst [("Red", 1); ("Green", 2); ("Blue", 3)])).
  { repeat constructor; simpl; intuition discriminate. }
  assert (Hv : NoDup (map snd [("Red", 1); ("Green", 2); ("Blue", 3)])).
  { repeat constructor; simpl; intuition discriminate. }
  assert (Hdis : forall n v,
             In n (map fst [("Red", 1); ("Green", 2); ("Blue", 3)]) ->
             In v (map snd [("Red", 1); ("Green", 2); ("Blue", 3)]) ->
             n <> Number_toString v).
  { simpl. intros n v Hin Hiv E.
    repeat (destruct Hiv as [<- | Hiv]; [
      repeat (destruct Hin as [<- | Hin]; [discriminate E | ]);
      exact Hin | ]).
    exact Hiv. }
  assert (Hproto : ~ In "__proto__"
                      (map fst [("Red", 1); ("Green", 2); ("Blue", 3)])).
  { simpl. intros [H | [H | [H | []]]]; discriminate. }
  assert (Hsafe : forall v,
             In v (map snd [("Red", 1); ("Green", 2); ("Blue", 3)]) ->
             safe_integer v).
  { simpl. unfold safe_integer. intros v [<- | [<- | [<- | []]]]; lia. }
  destruct (enum_reverse_mapping [("Red", 1); ("Green", 2); ("Blue", 3)]
              Hn Hv Hproto Hsafe Hdis "Green" 2) as (H1 & H2 & _).
  - simpl. tauto.
  - split; [exact H1 | exact H2].
Defined.

(** ** [buildName1], [buildName2], [buildName3] *)

(** X13.  The two ways of leaving the last name off differ.  For a last
    name that is truthy (a non-empty string, say) [buildName1] and
    [buildName2] return the same; for one that is falsy ([undefined], [""],
    ...) [buildName1] returns the first name alone and [buildName2] never
    does: it appends a space and the last name's text, which is ["Bond"]
    when the argument is [undefined]. *)
Theorem buildName1_buildName2 (firstName : string) (lastName : JsVal)
    (w : World) :
  (ToBoolean lastName = true ->
   buildName1 (VStr firstName) lastName w =
   buildName2 (VStr firstName) lastName w) /\
  (ToBoolean lastName = false ->
   buildName1 (VStr firstName) lastName w = (Normal (VStr firstName), w) /\
   buildName2 (VStr firstName) lastName w <>
   buildName1 (VStr firstName) lastName w) /\
  buildName2 (VStr firstName) VUndefined w =
  (Normal (VStr (firstName ++ " Bond")), w).
Proof.
  split; [ | split; [ | reflexivity]].
  - intros Ht. unfold buildName1, buildName2. rewrite Ht.
    destruct lastName; trivial. discriminate.
  - intros Hf.
    assert (H1 : buildName1 (VStr firstName) lastName w =
                 (Normal (VStr firstName), w)).
    { unfold buildName1. now rewrite Hf. }
    split; [exact H1 | ]. rewrite H1.
    assert (Hlen : forall x,
               (Normal (VStr (firstName ++ " " ++ x)), w) <>
               (Normal (VStr firstName), w)).
    { intros x [= E]. apply (f_equal String.length) in E.
      rewrite string_length_append in E. simpl in E. lia. }
    destruct lastName as [ | | [ | ] | n | l | props];
      simpl in Hf; try discriminate; try apply Hlen.
Qed.

Lemma buildName1_buildName2_witness :
  buildName1 (VStr "James") (VStr "Hunt") [] =
  buildName2 (VStr "James") (VStr "Hunt") [] /\
  buildName1 (VStr "James") (VStr "") [] = (Normal (VStr "James"), []) /\
  buildName2 (VStr "James") (VStr "") [] = (Normal (VStr "James "), []).
Proof.
  split; [ | split].
  - apply (proj1 (buildName1_buildName2 "James" (VStr "Hunt") [])).
    reflexivity.
  - apply (proj1 (proj2 (buildName1_buildName2 "James" (VStr "") []))).
    reflexivity.
  - reflexivity.
Defined.

Lemma intercalate_cons (sep x : string) (l : list string) :
  intercalate sep (x :: l) = (x ++ join_tail sep l)%string.
Proof.
  revert x. induction l as [ | y l IH]; intros x.
  - simpl. now rewrite append_nil_r.
  - change (intercalate sep (x :: y :: l))
      with (x ++ sep ++ intercalate sep (y :: l))%string.
    now rewrite IH.
Qed.

Lemma join_loop_strings (sep R : string) (l : list string) :
  join_loop sep R (map Some (map VStr l)) =
  Normal (R ++ join_tail sep l)%string.
Proof.
  revert R. induction l as [ | y l IH]; intros R; simpl.
  - now rewrite append_nil_r.
  - rewrite IH. f_equal. now rewrite !append_assoc.
Qed.

Lemma Array_join_strings (sep : string) (l : list string) :
  Array_join (map Some (map VStr l)) sep = Normal (intercalate sep l).
Proof.
  destruct l as [ | x l]; [reflexivity | ].
  rewrite intercalate_cons. simpl. apply join_loop_strings.
Qed.

Lemma join_tail_app (sep : string) (l1 l2 : list string) :
  join_tail sep (l1 ++ l2) = (join_tail sep l1 ++ join_tail sep l2)%string.
Proof.
  induction l1 as [ | x l1 IH]; simpl; trivial.
  now rewrite IH, !append_assoc.
Qed.

Lemma buildName3_strings (firstName : string) (names : list string)
    (w : World) :
  buildName3 (VStr firstName) (map VStr names) w =
  (Normal (VStr (firstName ++ " " ++ intercalate " " names)), w).
Proof.
  unfold buildName3, bind, lift. cbn [ToString].
  rewrite Array_join_strings. cbn beta iota. unfold ret.
  now rewrite append_assoc.
Qed.

(** X14.  [buildName3] returns the first name, a space, and the remaining
    names separated by single spaces.  With no remaining name the space is
    still there, so the result ends in a space (unlike [buildName1]'s); with
    one, the result is that of [buildName2]. *)
Theorem buildName3_joins (firstName : string) (names : list string)
    (w : World) :
  buildName3 (VStr firstName) (map VStr names) w =
  (Normal (VStr (firstName ++ " " ++ intercalate " " names)), w) /\
  buildName3 (VStr firstName) [] w = (Normal (VStr (firstName ++ " ")), w) /\
  (forall lastName,
      buildName3 (VStr firstName) [VStr lastName] w =
      buildName2 (VStr firstName) (VStr lastName) w).
Proof.
  split; [apply buildName3_strings | split].
  - apply (buildName3_strings firstName []).
  - intros lastName. now rewrite (buildName3_strings firstName [lastName]).
Qed.

(** X15.  Names can be added in two steps: calling [buildName3] on the
    result of [buildName3(firstName, ...names1)] with [names2] gives what
    one call with all the names gives, provided neither list is empty (an
    empty one leaves a space too many or too few). *)
Theorem buildName3_compose (firstName : string) (names1 names2 : list string)
    (w : World) :
  names1 <> [] -> names2 <> [] ->
  exists r,
    buildName3 (VStr firstName) (map VStr names1) w = (Normal (VStr r), w) /\
    buildName3 (VStr r) (map VStr names2) w =
    buildName3 (VStr firstName) (map VStr (names1 ++ names2)) w.
Proof.
  intros Hne1 Hne2.
  destruct names1 as [ | x names1]; [contradiction | ].
  destruct names2 as [ | y names2]; [contradiction | ].
  eexists. split; [apply buildName3_strings | ].
  rewrite !buildName3_strings. do 3 f_equal.
  change ((x :: names1) ++ y :: names2)
    with (x :: (names1 ++ y :: names2)).
  rewrite !intercalate_cons, join_tail_app. simpl.
  rewrite !append_assoc. f_equal. simpl. f_equal.
  now rewrite !append_assoc.
Qed.

Lemma buildName3_compose_witness :
  exists r,
    buildName3 (VStr "Joseph") (map VStr ["Samuel"]) [] =
    (Normal (VStr r), []) /\
    buildName3 (VStr r) (map VStr ["Lucas"; "MacKinzie"]) [] =
    buildName3 (VStr "Joseph") (map VStr (["Samuel"] ++ ["Lucas"; "MacKinzie"]))
      [].
Proof.
  refine (buildName3_compose "Joseph" ["Samuel"] ["Lucas"; "MacKinzie"] []
            _ _); discriminate.
Defined.

(** ** [reverse] *)

Lemma list_ascii_of_string_app (a b : string) :
  list_ascii_of_string (a ++ b) =
  list_ascii_of_string a ++ list_ascii_of_string b.
Proof.
  induction a as [ | x a IH]; simpl; [reflexivity | now rewrite IH].
Qed.

(** X16.  [reverse] turns concatenation around: the reverse of [a + b] is
    the reverse of [b] followed by the reverse of [a]. *)
Theorem reverse_append (a b : string) (w : World) :
  exists ra rb,
    reverse a w = (Normal (VStr ra), w) /\
    reverse b w = (Normal (VStr rb), w) /\
    reverse (a ++ b) w = (Normal (VStr (rb ++ ra)), w).
Proof.
  exists (string_of_list_ascii (rev (list_ascii_of_string a))),
         (string_of_list_ascii (rev (list_ascii_of_string b))).
  rewrite !reverse_eval. repeat split.
  now rewrite list_ascii_of_string_app, rev_app_distr,
    string_of_list_ascii_app.
Qed.

(** X17.  [reverse] loses nothing: two strings with the same reverse are the
    same string, and the reverse of a string has the same characters, each
    as often as the string has it. *)
Theorem reverse_injective (a b : string) (w : World) :
  (reverse a w = reverse b w -> a = b) /\
  exists r,
    reverse a w = (Normal (VStr r), w) /\
    Permutation (list_ascii_of_string r) (list_ascii_of_string a).
Proof.
  split.
  - rewrite !reverse_eval. intros [= E].
    apply (f_equal list_ascii_of_string) in E.
    rewrite !list_ascii_of_string_of_list_ascii in E.
    apply (f_equal (@rev ascii)) in E. rewrite !rev_involutive in E.
    apply (f_equal string_of_list_ascii) in E.
    now rewrite !string_of_list_ascii_of_string in E.
  - eexists. split; [apply reverse_eval | ].
    rewrite list_ascii_of_string_of_list_ascii.
    apply Permutation_sym, Permutation_rev.
Qed.

Lemma reverse_injective_witness : "abc" = "abc".
Proof.
  refine (proj1 (reverse_injective "abc" "abc" []) _). reflexivity.
Defined.

(** X18.  [logger] looks at nothing but [state], [code] and [response]:
    two values that read the same under these three names get the same
    answer, whatever other properties they have. *)
Theorem logger_reads_three_properties (s s' : JsVal) (w : World) :
  GetV s "state" = GetV s' "state" ->
  GetV s "code" = GetV s' "code" ->
  GetV s "response" = GetV s' "response" ->
  logger s w = logger s' w.
Proof.
  intros Hstate Hcode Hresponse. unfold logger, bind, lift.
  rewrite <- Hstate. destruct (GetV s "state") as [d | e]; trivial.
  cbn [switch_return logger_cases].
  destruct (strict_equals_string d "loading"); trivial.
  destruct (strict_equals_string d "failed").
  { unfold bind, lift. now rewrite <- Hcode. }
  destruct (strict_equals_string d "success"); trivial.
  unfold bind, lift. now rewrite <- Hresponse.
Qed.

Lemma logger_reads_three_properties_witness :
  logger (VObj [("retries", VNum 3); ("code", VNum 404);
                ("state", VStr "failed")]) [] =
  logger failed_404 [].
Proof.
  apply logger_reads_three_properties; reflexivity.
Defined.
